(** * CreateNetworkConnectivityFile: the RAPID connectivity table

    A shallow embedding of [toolbox/scripts/CreateNetworkConnectivityFile.py]
    and the properties of the rows it writes.

    The drainage-line table read by [arcpy.da.TableToNumPyArray] is a
    structured array with the two integer fields [HydroID] and [NextDownID];
    it is modelled as a list of records, in table order.  NumPy's boolean-mask
    selection is [filter], field projection is [fmap], [NUM.sort] is a sort of
    the integers, [NUM.concatenate] is [++], and indexing ([a[0]],
    [row_list[2]]) is list lookup that raises [IndexError] out of range.
    All values are integers ([Z]); the float detour of
    [NUM.concatenate] with an empty padding array is undone by
    [astype(int)] and is exact on the 32-bit identifiers of the table. *)

From Stdlib Require Import ZArith Lia.
From stdpp Require Import base decidable option numbers list list_numbers
  sorting strings.

Local Open Scope Z_scope.

(** ** Python exceptions and the error monad *)

Inductive exn : Set :=
  | IndexError.

Definition result (A : Type) : Type := exn + A.

Definition raise {A} (e : exn) : result A := inl e.

#[global] Instance result_ret : MRet result := λ A x, inr x.
#[global] Instance result_bind : MBind result := λ A B f m,
  match m with
  | inl e => inl e
  | inr x => f x
  end.

(** [a[i]] on a one-dimensional array. *)
Definition index {A} (a : list A) (i : nat) : result A :=
  match a !! i with
  | Some x => mret x
  | None => raise IndexError
  end.

(** [for x in xs: st = body(st, x)], stopping at the first exception. *)
Fixpoint for_each {S X} (body : S → X → result S) (st : S) (xs : list X)
    : result S :=
  match xs with
  | [] => mret st
  | x :: xs => st' ← body st x; for_each body st' xs
  end.

(** [[f(x) for x in xs]], stopping at the first exception. *)
Fixpoint for_list {X Y} (f : X → result Y) (xs : list X) : result (list Y) :=
  match xs with
  | [] => mret []
  | x :: xs => y ← f x; ys ← for_list f xs; mret (y :: ys)
  end.

(** ** The input table *)

Record reach : Set := Reach { HydroID : Z; NextDownID : Z }.

#[global] Instance reach_eq_dec : EqDecision reach.
Proof. solve_decision. Defined.

(** [t[fld]]: one field of every row, in row order. *)
Definition column (fld : reach → Z) (t : list reach) : list Z := fld <$> t.

(** [t[t[fld] == v]]: the rows selected by a boolean mask, in row order. *)
Definition where_eq (fld : reach → Z) (v : Z) (t : list reach) : list reach :=
  filter (λ r, fld r = v) t.

Module NUM.
(** [NUM.sort]: a sorted copy, ascending. *)
Definition sort (a : list Z) : list Z := merge_sort Z.le a.

(** [NUM.concatenate([a, b])]. *)
Definition concatenate (a b : list Z) : list Z := a ++ b.

(** [NUM.array([0 for i in xrange(n)])]; [xrange] of a negative number
    is empty. *)
Definition zeros (n : Z) : list Z := replicate (Z.to_nat n) 0.
End NUM.

(** ** [execute] *)

(** Lines 121-133: the body of the loop over the sorted identifiers, on the
    loop state [(list_all, max_count_Upstream)]. *)
Definition loop_body (np_table : list reach) (st : list (list Z) * Z)
    (hydroid : Z) : result (list (list Z) * Z) :=
  let '(list_all, max_count_Upstream) := st in
  let list_upstreamID :=
    column HydroID (where_eq NextDownID hydroid np_table) in
  let count_upstream := Z.of_nat (length list_upstreamID) in
  let max_count_Upstream :=
    if decide (count_upstream > max_count_Upstream) then count_upstream
    else max_count_Upstream in
  nextDownID ←
    index (column NextDownID (where_eq HydroID hydroid np_table)) 0;
  let nextDownID := if decide (nextDownID = -1) then 0 else nextDownID in
  mret (list_all ++
          [NUM.concatenate [hydroid; nextDownID; count_upstream]
                           list_upstreamID],
        max_count_Upstream).

(** Lines 116-133: the rows before padding and the largest upstream count. *)
Definition scan (np_table : list reach) : result (list (list Z) * Z) :=
  for_each (loop_body np_table) ([], 0) (NUM.sort (column HydroID np_table)).

(** Lines 136-137: the number of upstream columns. *)
Definition resolve_width (in_max_nbr_upstreams : option Z)
    (max_count_Upstream : Z) : Z :=
  match in_max_nbr_upstreams with
  | None => max_count_Upstream
  | Some n => n
  end.

(** Line 143: one row as handed to the CSV writer. *)
Definition pad_row (in_max_nbr_upstreams : Z) (row_list : list Z)
    : result (list Z) :=
  count ← index row_list 2;
  mret (NUM.concatenate row_list (NUM.zeros (in_max_nbr_upstreams - count))).

(** Lines 142-144: the rows written, in order. *)
Definition write_rows (in_max_nbr_upstreams : Z) (list_all : list (list Z))
    : result (list (list Z)) :=
  for_list (pad_row in_max_nbr_upstreams) list_all.

(** The tool body on the table and the optional third parameter; the result
    is the content of the CSV file, or the exception raised. *)
Definition execute (np_table : list reach) (in_max_nbr_upstreams : option Z)
    : result (list (list Z)) :=
  '(list_all, max_count_Upstream) ← scan np_table;
  write_rows (resolve_width in_max_nbr_upstreams max_count_Upstream) list_all.

(** ** [updateMessages], third parameter *)

(** Lines 100-103: the error message set on the parameter, if any. *)
Definition updateMessages_max_nbr (altered : bool) (max_nbr : Z)
    : option string :=
  if altered then
    if decide (max_nbr < 0 ∨ max_nbr > 12) then
      Some "Input Maximum Number of Upstreams must be within [1, 12]"%string
    else None
  else None.

(** ** The adjacency read off the table *)

(** The identifiers whose [NextDownID] is [id], in table order. *)
Definition upstream_ids (t : list reach) (id : Z) : list Z :=
  column HydroID (where_eq NextDownID id t).

Definition fan_in (t : list reach) (id : Z) : nat :=
  length (upstream_ids t id).

Definition max_fan_in (t : list reach) : nat :=
  max_list_with (fan_in t) (column HydroID t).

(** The [NextDownID] of the first row of the table whose [HydroID] is [id]. *)
Definition first_down (t : list reach) (id : Z) : option Z :=
  column NextDownID (where_eq HydroID id t) !! 0%nat.

Definition raw_row (t : list reach) (id : Z) : list Z :=
  let d := default 0 (first_down t id) in
  [id; if decide (d = -1) then 0 else d; Z.of_nat (fan_in t id)]
    ++ upstream_ids t id.

Definition final_row (t : list reach) (width : Z) (id : Z) : list Z :=
  raw_row t id ++ replicate (Z.to_nat (width - Z.of_nat (fan_in t id))) 0.

(** The first three fields of a row of the file. *)
Definition row_id (row : list Z) : option Z := row !! 0%nat.
Definition row_down (row : list Z) : option Z := row !! 1%nat.
Definition row_count (row : list Z) : option Z := row !! 2%nat.

(** ** Sample tables *)

Definition example_table : list reach :=
  [Reach 1 (-1); Reach 2 1; Reach 3 1; Reach 4 2].

Definition repeated_table : list reach :=
  [Reach 3 7; Reach 1 3; Reach 3 (-1); Reach 2 (-2)].

(** ** The statements under test *)

(** The claim C2 as stated: a bound below some reach's upstream count makes
    the run fail. *)
Definition fails_on_overflow : Prop :=
  ∀ (t : list reach) (w : Z),
    (∃ id, id ∈ column HydroID t ∧ w < Z.of_nat (fan_in t id)) →
    ∃ e, execute t (Some w) = inl e.

(** The claim C3 as stated: the width is the bound when one is given and the
    largest upstream count otherwise, and every row has [3 + width] fields. *)
Definition rows_have_the_width : Prop :=
  ∀ (t : list reach) (o : option Z) (rows : list (list Z)),
    t ≠ [] →
    execute t o = inr rows →
    let width :=
      match o with Some w => w | None => Z.of_nat (max_fan_in t) end in
    Forall (λ row, Z.of_nat (length row) = 3 + width) rows.

(** [sum(row[2] for row in rows)] on the third column. *)
Definition Zsum (l : list Z) : Z := foldr Z.add 0 l.

(** The reaches of [t] whose [NextDownID] is the identifier of another reach
    of [t]. *)
Definition feeds_another (t : list reach) (r : reach) : Prop :=
  Exists (λ r', r' ≠ r ∧ HydroID r' = NextDownID r) t.

(** The reaches of [t] whose [NextDownID] is the identifier of a reach of
    [t], itself included. *)
Definition feeds_some (t : list reach) (r : reach) : Prop :=
  NextDownID r ∈ column HydroID t.

#[global] Instance feeds_another_dec t r : Decision (feeds_another t r).
Proof. unfold feeds_another. apply _. Defined.

#[global] Instance feeds_some_dec t r : Decision (feeds_some t r).
Proof. unfold feeds_some. apply _. Defined.

(** The claim C7 as stated. *)
Definition counts_edges_to_others : Prop :=
  ∀ (t : list reach) (o : option Z) (rows : list (list Z)) (counts : list Z),
    NoDup (column HydroID t) →
    execute t o = inr rows →
    row_count <$> rows = Some <$> counts →
    Zsum counts = Z.of_nat (length (filter (feeds_another t) t)).

(** ** Reading a row back *)

(** The upstream identifiers a reader takes from a row: as many fields after
    the third as the third field says. *)
Definition row_upstream (row : list Z) : list Z :=
  take (Z.to_nat (default 0 (row_count row))) (drop 3 row).

(** What follows the upstream identifiers in a row. *)
Definition row_padding (row : list Z) : list Z :=
  drop (Z.to_nat (default 0 (row_count row))) (drop 3 row).

(** ** [updateMessages], first parameter, and [updateParameters] *)


Section Host.
(** [str.upper], [os.path.split] and [os.path.join] are the host's. *)
Variable upper : string → string.
Variable split : string → string * string.
Variable join : string → string → string.

(** Lines 89-98: the error message set on the first parameter, if any.
    [ListFields] is the outcome of [arcpy.ListFields]: the base names of the
    fields, or the message of the exception it raised. *)
Definition updateMessages_fields (altered : bool)
    (ListFields : string + list string) : option string :=
  if altered then
    match ListFields with
    | inl message => Some message
    | inr fields =>
        let field_names :=
          foldl (λ field_names field, field_names ++ [upper field])
                [] fields in
        if decide (¬ ("HYDROID"%string ∈ field_names
                      ∧ "NEXTDOWNID"%string ∈ field_names)) then
          Some "Input Drainage Line must contain HydroID and NextDownID."%string
        else None
    end
  else None.

End Host.



(** ** The loop computes the adjacency rows *)

Section Scan.
Variable t : list reach.

Lemma first_down_is_Some id :
  id ∈ column HydroID t → is_Some (first_down t id).
Proof.
  unfold first_down, column, where_eq.
  intros (r & -> & Hr)%list_elem_of_fmap.
  assert (Hin : r ∈ filter (λ r', HydroID r' = HydroID r) t)
    by (apply list_elem_of_filter; done).
  destruct (filter _ t) as [|r' l]; [by apply elem_of_nil in Hin|].
  by eexists.
Qed.

Lemma loop_body_eq acc m id :
  id ∈ column HydroID t →
  loop_body t (acc, m) id =
    inr (acc ++ [raw_row t id], m `max` Z.of_nat (fan_in t id)).
Proof.
  intros [d Hd]%first_down_is_Some.
  unfold loop_body, index, raw_row. fold (upstream_ids t id).
  fold (first_down t id). rewrite Hd. simpl. fold (fan_in t id).
  unfold mret, result_ret, NUM.concatenate. do 2 f_equal.
  case_decide; lia.
Qed.

Lemma for_each_loop_body ids : ∀ acc m,
  0 ≤ m →
  ids ⊆ column HydroID t →
  for_each (loop_body t) (acc, m) ids =
    inr (acc ++ (raw_row t <$> ids),
         m `max` Z.of_nat (max_list_with (fan_in t) ids)).
Proof.
  induction ids as [|id ids IH]; intros acc m Hm Hsub; cbn [for_each].
  - unfold mret, result_ret. rewrite app_nil_r. simpl. do 2 f_equal. lia.
  - rewrite loop_body_eq by (apply Hsub; left).
    unfold mbind, result_bind.
    rewrite IH; [|lia|intros x Hx; apply Hsub; by right].
    rewrite <- app_assoc. simpl. do 2 f_equal. lia.
Qed.

Lemma sort_Permutation (a : list Z) : NUM.sort a ≡ₚ a.
Proof. apply merge_sort_Permutation. Qed.

Lemma scan_eq :
  scan t = inr (raw_row t <$> NUM.sort (column HydroID t),
                Z.of_nat (max_fan_in t)).
Proof.
  unfold scan. rewrite for_each_loop_body; [|done|].
  - do 2 f_equal. unfold max_fan_in.
    rewrite (max_list_with_Permutation_proper _ _ _ (sort_Permutation _)).
    lia.
  - intros x Hx. by rewrite <- (sort_Permutation (column HydroID t)).
Qed.

Lemma pad_row_raw w id : pad_row w (raw_row t id) = inr (final_row t w id).
Proof. reflexivity. Qed.

Lemma write_rows_raw w ids :
  write_rows w (raw_row t <$> ids) = inr (final_row t w <$> ids).
Proof.
  unfold write_rows. induction ids as [|id ids IH]; [done|].
  rewrite fmap_cons. cbn [for_list]. rewrite pad_row_raw, IH. done.
Qed.

Lemma execute_eq o :
  execute t o =
    inr (final_row t (resolve_width o (Z.of_nat (max_fan_in t)))
           <$> NUM.sort (column HydroID t)).
Proof. unfold execute. rewrite scan_eq. simpl. apply write_rows_raw. Qed.
End Scan.

(** ** Facts about the rows of the file *)

Lemma max_list_with_ge {A} (f : A → nat) (l : list A) (x : A) :
  x ∈ l → (f x ≤ max_list_with f l)%nat.
Proof.
  induction l as [|y l IH]; [by intros ?%elem_of_nil|].
  intros [->|Hx]%elem_of_cons; simpl; [lia|].
  specialize (IH Hx). lia.
Qed.

Lemma fan_in_le_max t id :
  id ∈ column HydroID t → (fan_in t id ≤ max_fan_in t)%nat.
Proof. apply max_list_with_ge. Qed.

Lemma elem_of_rows t w row :
  row ∈ final_row t w <$> NUM.sort (column HydroID t) ↔
  ∃ id, id ∈ column HydroID t ∧ row = final_row t w id.
Proof.
  rewrite list_elem_of_fmap. split; intros (id & H1 & H2); exists id.
  - by rewrite <- (sort_Permutation (column HydroID t)).
  - by rewrite (sort_Permutation (column HydroID t)).
Qed.

Lemma row_id_final t w id : row_id (final_row t w id) = Some id.
Proof. reflexivity. Qed.

Lemma row_down_final t w id :
  row_down (final_row t w id) =
    Some (let d := default 0 (first_down t id) in
          if decide (d = -1) then 0 else d).
Proof. reflexivity. Qed.

Lemma row_count_final t w id :
  row_count (final_row t w id) = Some (Z.of_nat (fan_in t id)).
Proof. reflexivity. Qed.

Lemma drop_3_final t w id :
  drop 3 (final_row t w id) =
    upstream_ids t id ++ replicate (Z.to_nat (w - Z.of_nat (fan_in t id))) 0.
Proof. reflexivity. Qed.

Lemma length_final t w id :
  length (final_row t w id) =
    (3 + fan_in t id + Z.to_nat (w - Z.of_nat (fan_in t id)))%nat.
Proof.
  unfold final_row, raw_row. rewrite !length_app, length_replicate.
  simpl. unfold fan_in. lia.
Qed.

(** ** The worked example *)

(** C1: on the reaches (1,-1), (2,1), (3,1), (4,2) with no width bound, the
    largest upstream count is 2 and the file holds exactly the rows
    1,0,2,2,3 / 2,1,1,4,0 / 3,1,0,0,0 / 4,2,0,0,0, in that order. *)
Theorem example_rows :
  max_fan_in example_table = 2%nat ∧
  execute example_table None =
    inr [[1; 0; 2; 2; 3]; [2; 1; 1; 4; 0]; [3; 1; 0; 0; 0]; [4; 2; 0; 0; 0]].
Proof. split; vm_compute; reflexivity. Qed.

(** ** A width bound below the fan-in *)

(** With the bound 1 on the worked example, reach 1 has two upstream reaches:
    no exception is raised and its row is written whole, without padding. *)
Lemma overflow_not_an_error :
  execute example_table (Some 1) =
    inr [[1; 0; 2; 2; 3]; [2; 1; 1; 4]; [3; 1; 0; 0]; [4; 2; 0; 0]] ∧
  ¬ fails_on_overflow.
Proof.
  split; [vm_compute; reflexivity|].
  intros H. destruct (H example_table 1) as [e He]; [|discriminate He].
  exists 1. split; [|vm_compute; reflexivity].
  apply list_elem_of_In. vm_compute. auto.
Qed.

(** C2, amended: when the bound is smaller than the upstream count of some
    reach, no exception is raised; every row of the file carries all the
    upstream identifiers of its reach, and the row of the overflowing reach
    has no padding, hence [3 + count] fields, more than [3 + bound]. *)
Theorem overflow_rows_not_truncated (t : list reach) (w id : Z) :
  id ∈ column HydroID t →
  w < Z.of_nat (fan_in t id) →
  ∃ rows, execute t (Some w) = inr rows ∧
    (∀ row, row ∈ rows →
       ∃ id', id' ∈ column HydroID t ∧ row_id row = Some id' ∧
         row_count row = Some (Z.of_nat (fan_in t id')) ∧
         take (fan_in t id') (drop 3 row) = upstream_ids t id') ∧
    (∃ row, row ∈ rows ∧ row_id row = Some id ∧
       drop 3 row = upstream_ids t id ∧
       Z.of_nat (length row) = 3 + Z.of_nat (fan_in t id) ∧
       3 + w < Z.of_nat (length row)).
Proof.
  intros Hid Hw. eexists. split; [apply execute_eq|]. simpl. split.
  - intros row (id' & Hid' & ->)%elem_of_rows. exists id'.
    repeat split; [done|]. rewrite drop_3_final. apply take_app_length.
  - exists (final_row t w id). split; [apply elem_of_rows; eauto|].
    rewrite drop_3_final, length_final.
    replace (Z.to_nat (w - Z.of_nat (fan_in t id))) with 0%nat by lia.
    simpl. rewrite app_nil_r. repeat split; lia.
Qed.

Lemma overflow_rows_not_truncated_witness :
  ∃ rows, execute example_table (Some 1) = inr rows ∧
    (∀ row, row ∈ rows →
       ∃ id', id' ∈ column HydroID example_table ∧ row_id row = Some id' ∧
         row_count row = Some (Z.of_nat (fan_in example_table id')) ∧
         take (fan_in example_table id') (drop 3 row) =
           upstream_ids example_table id') ∧
    (∃ row, row ∈ rows ∧ row_id row = Some 1 ∧
       drop 3 row = upstream_ids example_table 1 ∧
       Z.of_nat (length row) = 3 + Z.of_nat (fan_in example_table 1) ∧
       3 + 1 < Z.of_nat (length row)).
Proof.
  apply (overflow_rows_not_truncated example_table 1 1).
  - apply list_elem_of_In. simpl. auto.
  - vm_compute. reflexivity.
Defined.

(** ** The width of the table *)

(** With the bound 1 on the worked example the first row has five fields,
    not four. *)
Lemma overflow_row_too_long :
  execute example_table (Some 1) =
    inr [[1; 0; 2; 2; 3]; [2; 1; 1; 4]; [3; 1; 0; 0]; [4; 2; 0; 0]] ∧
  ¬ rows_have_the_width.
Proof.
  split; [vm_compute; reflexivity|].
  intros H. specialize (H example_table (Some 1) _ ltac:(discriminate)
                          ltac:(vm_compute; reflexivity)).
  apply Forall_cons_1 in H as [H _]. vm_compute in H. discriminate H.
Qed.

(** C3, amended: the loop leaves the largest upstream count of the table in
    [max_count_Upstream]; the width is the bound when one is given and that
    maximum otherwise; and when the width is at least every upstream count
    (always so without a bound) every row has exactly [3 + width] fields. *)
Theorem width_and_row_length (t : list reach) (o : option Z) :
  (∀ w, o = Some w → Z.of_nat (max_fan_in t) ≤ w) →
  ∃ list_all max_count_Upstream rows,
    scan t = inr (list_all, max_count_Upstream) ∧
    max_count_Upstream = Z.of_nat (max_fan_in t) ∧
    execute t o = inr rows ∧
    let width := resolve_width o max_count_Upstream in
    width = match o with Some w => w | None => Z.of_nat (max_fan_in t) end ∧
    Forall (λ row, Z.of_nat (length row) = 3 + width) rows.
Proof.
  intros Ho. do 3 eexists.
  split; [apply scan_eq|]. split; [done|]. split; [apply execute_eq|].
  split; [by destruct o|].
  apply Forall_forall. intros row (id & Hid & ->)%elem_of_rows.
  rewrite length_final. apply fan_in_le_max in Hid.
  destruct o as [w|]; simpl; [specialize (Ho w eq_refl)|]; lia.
Qed.

Lemma width_and_row_length_witness :
  ∃ list_all max_count_Upstream rows,
    scan example_table = inr (list_all, max_count_Upstream) ∧
    max_count_Upstream = Z.of_nat (max_fan_in example_table) ∧
    execute example_table (Some 5) = inr rows ∧
    let width := resolve_width (Some 5) max_count_Upstream in
    width = 5 ∧
    Forall (λ row, Z.of_nat (length row) = 3 + width) rows.
Proof.
  apply (width_and_row_length example_table (Some 5)).
  intros w [= <-]. vm_compute. discriminate.
Defined.

(** ** The downstream field *)

Lemma where_eq_not_elem_of fld v l :
  v ∉ column fld l → where_eq fld v l = [].
Proof.
  unfold where_eq, column. induction l as [|x l IH]; [done|].
  rewrite fmap_cons, not_elem_of_cons. intros [Hx Hl].
  rewrite filter_cons. case_decide; [congruence|auto].
Qed.

Lemma first_down_first_row l1 r l2 :
  HydroID r ∉ column HydroID l1 →
  first_down (l1 ++ r :: l2) (HydroID r) = Some (NextDownID r).
Proof.
  intros Hl1. unfold first_down.
  assert (Heq : where_eq HydroID (HydroID r) (l1 ++ r :: l2) =
                r :: where_eq HydroID (HydroID r) l2).
  { unfold where_eq at 1. rewrite filter_app.
    fold (where_eq HydroID (HydroID r) l1).
    rewrite where_eq_not_elem_of by done. simpl.
    rewrite filter_cons. by case_decide. }
  by rewrite Heq.
Qed.

Lemma NoDup_first_row t r :
  NoDup (column HydroID t) → r ∈ t →
  ∃ l1 l2, t = l1 ++ r :: l2 ∧ HydroID r ∉ column HydroID l1.
Proof.
  intros Hnd (l1 & l2 & ->)%list_elem_of_split. exists l1, l2.
  split; [done|]. unfold column in *. rewrite fmap_app, fmap_cons in Hnd.
  apply NoDup_app in Hnd as (_ & Hdisj & _).
  intros Hin. apply (Hdisj _ Hin). left.
Qed.

Lemma first_row_down_field t o l1 r l2 row :
  t = l1 ++ r :: l2 →
  HydroID r ∉ column HydroID l1 →
  row ∈ final_row t o <$> NUM.sort (column HydroID t) →
  row_id row = Some (HydroID r) →
  row_down row =
    Some (if decide (NextDownID r = -1) then 0 else NextDownID r).
Proof.
  intros -> Hl1 (id & _ & ->)%elem_of_rows. rewrite row_id_final.
  intros [= ->]. rewrite row_down_final.
  by rewrite first_down_first_row.
Qed.

Lemma elem_of_column fld (t : list reach) r : r ∈ t → fld r ∈ column fld t.
Proof. intros Hr. apply list_elem_of_fmap. eauto. Qed.

(** C4: in a table with unique identifiers, every reach has a row, and the
    second field of that row is the reach's [NextDownID], with -1 written
    as 0. *)
Theorem downstream_field (t : list reach) (o : option Z) (r : reach) :
  NoDup (column HydroID t) →
  r ∈ t →
  ∃ rows, execute t o = inr rows ∧
    (∃ row, row ∈ rows ∧ row_id row = Some (HydroID r)) ∧
    (∀ row, row ∈ rows → row_id row = Some (HydroID r) →
       row_down row =
         Some (if decide (NextDownID r = -1) then 0 else NextDownID r)).
Proof.
  intros Hnd Hr. eexists. split; [apply execute_eq|]. split.
  - eexists. split; [apply elem_of_rows; eauto using elem_of_column|].
    apply row_id_final.
  - destruct (NoDup_first_row t r Hnd Hr) as (l1 & l2 & Ht & Hl1).
    intros row. by apply (first_row_down_field t _ l1 r l2).
Qed.

Lemma downstream_field_witness :
  ∃ rows, execute example_table None = inr rows ∧
    (∃ row, row ∈ rows ∧ row_id row = Some 1) ∧
    (∀ row, row ∈ rows → row_id row = Some 1 → row_down row = Some 0).
Proof.
  apply (downstream_field example_table None (Reach 1 (-1))).
  - apply (bool_decide_unpack _). vm_compute. exact I.
  - apply (bool_decide_unpack _). vm_compute. exact I.
Defined.

(** ** One row per reach, in ascending order *)

Lemma length_rows_with_id t w id (l : list Z) :
  length (filter (λ row, row_id row = Some id) (final_row t w <$> l)) =
  length (filter (λ x, x = id) l).
Proof.
  induction l as [|x l IH]; [done|].
  rewrite fmap_cons, !filter_cons, row_id_final.
  repeat case_decide; simplify_eq; simpl; congruence.
Qed.

Lemma length_column_with_id fld v (t : list reach) :
  length (filter (λ x, x = v) (column fld t)) = length (where_eq fld v t).
Proof.
  unfold column, where_eq. induction t as [|r t IH]; [done|].
  rewrite fmap_cons, !filter_cons.
  repeat case_decide; simpl; congruence.
Qed.

Lemma rows_per_id t w id :
  length (filter (λ row, row_id row = Some id)
            (final_row t w <$> NUM.sort (column HydroID t))) =
  length (where_eq HydroID id t).
Proof.
  rewrite length_rows_with_id, <- length_column_with_id.
  apply Permutation_length, filter_Permutation, sort_Permutation.
Qed.

Lemma filter_eq_not_elem_of (l : list Z) x :
  x ∉ l → filter (λ y, y = x) l = [].
Proof.
  induction l as [|y l IH]; [done|].
  rewrite not_elem_of_cons. intros [Hy Hl].
  rewrite filter_cons_False by congruence. auto.
Qed.

Lemma NoDup_occurs_once (l : list Z) x :
  NoDup l → x ∈ l → length (filter (λ y, y = x) l) = 1%nat.
Proof.
  induction 1 as [|y l Hy Hnd IH]; [by intros ?%elem_of_nil|].
  rewrite filter_cons. intros [->|Hx]%elem_of_cons.
  - rewrite decide_True by done. simpl.
    by rewrite filter_eq_not_elem_of.
  - rewrite decide_False by (by intros ->). auto.
Qed.

(** C5: in a table with unique identifiers the file has as many rows as the
    table has reaches, and every reach identifier is the first field of
    exactly one row. *)
Theorem one_row_per_reach (t : list reach) (o : option Z) :
  NoDup (column HydroID t) →
  ∃ rows, execute t o = inr rows ∧
    length rows = length t ∧
    ∀ r, r ∈ t →
      length (filter (λ row, row_id row = Some (HydroID r)) rows) = 1%nat.
Proof.
  intros Hnd. eexists. split; [apply execute_eq|]. split.
  - rewrite length_fmap, (Permutation_length (sort_Permutation _)).
    apply length_fmap.
  - intros r Hr. rewrite rows_per_id, <- length_column_with_id.
    apply NoDup_occurs_once; [done|by apply elem_of_column].
Qed.

Lemma one_row_per_reach_witness :
  ∃ rows, execute example_table None = inr rows ∧
    length rows = 4%nat ∧
    ∀ r, r ∈ example_table →
      length (filter (λ row, row_id row = Some (HydroID r)) rows) = 1%nat.
Proof.
  apply (one_row_per_reach example_table None).
  apply (bool_decide_unpack _). vm_compute. exact I.
Defined.

Lemma StronglySorted_le_lt (l : list Z) :
  StronglySorted Z.le l → NoDup l → StronglySorted Z.lt l.
Proof.
  induction 1 as [|x l Hl IH Hx]; [constructor|].
  intros [Hnx Hnd]%NoDup_cons. constructor; [auto|].
  apply Forall_forall. intros y Hy.
  rewrite Forall_forall in Hx. specialize (Hx y Hy).
  assert (x ≠ y) by (by intros ->). lia.
Qed.

Lemma sort_StronglySorted (a : list Z) : StronglySorted Z.le (NUM.sort a).
Proof. apply StronglySorted_merge_sort; apply _. Qed.

Lemma sort_Permutation_eq (a b : list Z) : a ≡ₚ b → NUM.sort a = NUM.sort b.
Proof.
  intros Hab. apply (StronglySorted_unique Z.le).
  - apply sort_StronglySorted.
  - apply sort_StronglySorted.
  - by rewrite !sort_Permutation.
Qed.

Lemma first_column_rows t w (l : list Z) :
  row_id <$> (final_row t w <$> l) = Some <$> l.
Proof. rewrite <- list_fmap_compose. by apply list_fmap_ext. Qed.

(** C6: in a table with unique identifiers the first fields of the rows are
    strictly increasing, and they are the same whatever the order of the rows
    of the table. *)
Theorem rows_strictly_ascending (t : list reach) (o : option Z) :
  NoDup (column HydroID t) →
  ∃ rows ids, execute t o = inr rows ∧
    row_id <$> rows = Some <$> ids ∧
    StronglySorted Z.lt ids ∧
    ∀ t' rows', t' ≡ₚ t → execute t' o = inr rows' →
      row_id <$> rows' = Some <$> ids.
Proof.
  intros Hnd. do 2 eexists. split; [apply execute_eq|].
  split; [apply first_column_rows|]. split.
  - apply StronglySorted_le_lt; [apply sort_StronglySorted|].
    by rewrite sort_Permutation.
  - intros t' rows' Ht'. rewrite execute_eq. intros [= <-].
    rewrite first_column_rows. f_equal. apply sort_Permutation_eq.
    unfold column. by rewrite Ht'.
Qed.

Lemma rows_strictly_ascending_witness :
  ∃ rows ids,
    execute [Reach 4 2; Reach 2 1; Reach 1 (-1); Reach 3 1] None = inr rows ∧
    row_id <$> rows = Some <$> ids ∧
    StronglySorted Z.lt ids ∧
    ∀ t' rows',
      t' ≡ₚ [Reach 4 2; Reach 2 1; Reach 1 (-1); Reach 3 1] →
      execute t' None = inr rows' →
      row_id <$> rows' = Some <$> ids.
Proof.
  apply (rows_strictly_ascending
           [Reach 4 2; Reach 2 1; Reach 1 (-1); Reach 3 1] None).
  apply (bool_decide_unpack _). vm_compute. exact I.
Defined.

(** ** The upstream counts add up to the edges *)

(** A reach that names itself as its downstream reach is counted as its own
    upstream reach, although it feeds no other reach. *)
Lemma self_loop_is_counted :
  execute [Reach 5 5] None = inr [[5; 5; 1; 5]] ∧
  length (filter (feeds_another [Reach 5 5]) [Reach 5 5]) = 0%nat ∧
  ¬ counts_edges_to_others.
Proof.
  split; [vm_compute; reflexivity|]. split; [vm_compute; reflexivity|].
  intros H.
  specialize (H [Reach 5 5] None [[5; 5; 1; 5]] [1]).
  discriminate H.
  - apply (bool_decide_unpack _). vm_compute. exact I.
  - vm_compute. reflexivity.
  - reflexivity.
Qed.

Lemma Zsum_fmap_of_nat {A} (f : A → nat) (l : list A) :
  Zsum ((λ x, Z.of_nat (f x)) <$> l) = Z.of_nat (sum_list_with f l).
Proof.
  unfold Zsum. induction l as [|x l IH]; [done|].
  rewrite fmap_cons. simpl. rewrite IH. lia.
Qed.

Lemma length_filter_or {A} (P Q : A → Prop)
    `{!∀ x, Decision (P x)} `{!∀ x, Decision (Q x)} (l : list A) :
  (∀ x, P x → Q x → False) →
  length (filter (λ x, P x ∨ Q x) l) =
    (length (filter P l) + length (filter Q l))%nat.
Proof.
  intros Hex. induction l as [|x l IH]; [done|].
  rewrite !filter_cons.
  destruct (decide (P x)) as [HP|HP], (decide (Q x)) as [HQ|HQ];
    [by destruct (Hex x)|..];
    [rewrite decide_True by tauto..|rewrite decide_False by tauto];
    simpl; lia.
Qed.

Lemma sum_fan_in (t : list reach) (l : list Z) :
  NoDup l →
  sum_list_with (fan_in t) l =
    length (filter (λ r, NextDownID r ∈ l) t).
Proof.
  induction 1 as [|x l Hx Hnd IH]; simpl.
  - symmetry. apply length_zero_iff_nil.
    induction t as [|r t IHt]; [done|].
    rewrite filter_cons_False; [done|apply not_elem_of_nil].
  - rewrite IH.
    rewrite (list_filter_iff (λ r, NextDownID r ∈ x :: l)
               (λ r, NextDownID r = x ∨ NextDownID r ∈ l))
      by (intros r; apply elem_of_cons).
    rewrite length_filter_or by (intros r ->; done).
    unfold fan_in, upstream_ids, column, where_eq. by rewrite length_fmap.
Qed.

Lemma count_column_rows t w (l : list Z) :
  row_count <$> (final_row t w <$> l) =
    Some <$> ((λ id, Z.of_nat (fan_in t id)) <$> l).
Proof. rewrite <- !list_fmap_compose. by apply list_fmap_ext. Qed.

(** C7, amended: in a table with unique identifiers the third fields of the
    rows add up to the number of reaches whose [NextDownID] is the identifier
    of some reach of the table, the reach itself included. *)
Theorem counts_edges (t : list reach) (o : option Z) :
  NoDup (column HydroID t) →
  ∃ rows counts, execute t o = inr rows ∧
    row_count <$> rows = Some <$> counts ∧
    Zsum counts = Z.of_nat (length (filter (feeds_some t) t)).
Proof.
  intros Hnd. do 2 eexists. split; [apply execute_eq|].
  split; [apply count_column_rows|].
  rewrite Zsum_fmap_of_nat. f_equal.
  rewrite (sum_list_with_Permutation_proper _ _ _ (sort_Permutation _)).
  by apply sum_fan_in.
Qed.

Lemma counts_edges_witness :
  ∃ rows counts, execute example_table None = inr rows ∧
    row_count <$> rows = Some <$> counts ∧
    Zsum counts =
      Z.of_nat (length (filter (feeds_some example_table) example_table)).
Proof.
  apply (counts_edges example_table None).
  apply (bool_decide_unpack _). vm_compute. exact I.
Defined.

(** ** Validation of the maximum number of upstream reaches *)

Lemma max_nbr_error_iff (max_nbr : Z) :
  is_Some (updateMessages_max_nbr true max_nbr) ↔ ¬ (0 ≤ max_nbr ≤ 12).
Proof.
  unfold updateMessages_max_nbr. case_decide; split.
  - lia.
  - by eexists.
  - by intros [? ?].
  - lia.
Qed.

(** C8: the value 0 lies outside the range [1, 12] named by the message, and
    yet [updateMessages] sets no error for it; values from 1 to 12 pass and
    values above 12 or below 0 are rejected. *)
Theorem zero_passes_validation :
  ¬ (1 ≤ 0 ≤ 12) ∧
  updateMessages_max_nbr true 0 = None ∧
  (∀ n, 1 ≤ n ≤ 12 → updateMessages_max_nbr true n = None) ∧
  (∀ n, n < 0 ∨ 12 < n → is_Some (updateMessages_max_nbr true n)).
Proof.
  split; [lia|]. split; [reflexivity|]. split.
  - intros n Hn. unfold updateMessages_max_nbr. case_decide; [lia|done].
  - intros n Hn. apply max_nbr_error_iff. lia.
Qed.

(** ** Repeated identifiers *)

(** C9: whatever the table, repeated identifiers included, no exception is
    raised; an identifier borne by [k] rows of the table is the first field
    of exactly [k] rows of the file; and each of these rows carries the
    [NextDownID] (with -1 written as 0) of the first row of the table that
    bears the identifier. *)
Theorem repeated_ids (t : list reach) (o : option Z) :
  ∃ rows, execute t o = inr rows ∧
    (∀ id,
       length (filter (λ row, row_id row = Some id) rows) =
       length (filter (λ r, HydroID r = id) t)) ∧
    (∀ l1 r l2 row,
       t = l1 ++ r :: l2 →
       HydroID r ∉ column HydroID l1 →
       row ∈ rows →
       row_id row = Some (HydroID r) →
       row_down row =
         Some (if decide (NextDownID r = -1) then 0 else NextDownID r)).
Proof.
  eexists. split; [apply execute_eq|]. split.
  - intros id. apply rows_per_id.
  - intros l1 r l2 row. apply first_row_down_field.
Qed.

Lemma repeated_ids_witness :
  execute repeated_table None =
    inr [[1; 3; 0; 0]; [2; -2; 0; 0]; [3; 7; 1; 1]; [3; 7; 1; 1]] ∧
  ∃ rows, execute repeated_table None = inr rows ∧
    (∀ id,
       length (filter (λ row, row_id row = Some id) rows) =
       length (filter (λ r, HydroID r = id) repeated_table)) ∧
    (∀ l1 r l2 row,
       repeated_table = l1 ++ r :: l2 →
       HydroID r ∉ column HydroID l1 →
       row ∈ rows →
       row_id row = Some (HydroID r) →
       row_down row =
         Some (if decide (NextDownID r = -1) then 0 else NextDownID r)).
Proof.
  split; [vm_compute; reflexivity|].
  apply (repeated_ids repeated_table None).
Defined.

(** ** Only the sentinel is rewritten *)

(** C10: no exception is raised, and for the first row of the table bearing
    an identifier, a [NextDownID] other than -1 (another negative number, or
    a number that is no reach's identifier) is the second field of the rows
    of that identifier, unchanged; the second field is 0 only when the
    [NextDownID] is -1 or 0. *)
Theorem only_sentinel_rewritten (t : list reach) (o : option Z)
    (l1 l2 : list reach) (r : reach) :
  t = l1 ++ r :: l2 →
  HydroID r ∉ column HydroID l1 →
  ∃ rows, execute t o = inr rows ∧
    (∃ row, row ∈ rows ∧ row_id row = Some (HydroID r)) ∧
    ∀ row, row ∈ rows → row_id row = Some (HydroID r) →
      (NextDownID r ≠ -1 → row_down row = Some (NextDownID r)) ∧
      (NextDownID r = -1 → row_down row = Some 0) ∧
      (row_down row = Some 0 → NextDownID r = -1 ∨ NextDownID r = 0).
Proof.
  intros Ht Hl1. eexists. split; [apply execute_eq|]. split.
  - exists (final_row t (resolve_width o (Z.of_nat (max_fan_in t)))
              (HydroID r)).
    split; [|apply row_id_final].
    apply elem_of_rows. eexists. split; [|done].
    apply elem_of_column. rewrite Ht. apply elem_of_app. right. left.
  - intros row Hrow Hid.
    rewrite (first_row_down_field t _ l1 r l2 row Ht Hl1 Hrow Hid).
    case_decide; repeat split; intros H'; simplify_eq; (done || lia).
Qed.

Lemma only_sentinel_rewritten_witness :
  ∃ rows, execute [Reach 1 (-2); Reach 2 99; Reach 3 (-1)] None = inr rows ∧
    (∃ row, row ∈ rows ∧ row_id row = Some 1) ∧
    ∀ row, row ∈ rows → row_id row = Some 1 →
      (-2 ≠ -1 → row_down row = Some (-2)) ∧
      (-2 = -1 → row_down row = Some 0) ∧
      (row_down row = Some 0 → -2 = -1 ∨ -2 = 0).
Proof.
  apply (only_sentinel_rewritten [Reach 1 (-2); Reach 2 99; Reach 3 (-1)]
           None [] [Reach 2 99; Reach 3 (-1)] (Reach 1 (-2))).
  - reflexivity.
  - apply not_elem_of_nil.
Defined.

(** ** The layout of a row *)

Lemma row_upstream_final t w id :
  row_upstream (final_row t w id) = upstream_ids t id.
Proof.
  unfold row_upstream. rewrite row_count_final, drop_3_final. simpl.
  rewrite Nat2Z.id. apply take_app_length.
Qed.

Lemma row_padding_final t w id :
  row_padding (final_row t w id) =
    replicate (Z.to_nat (w - Z.of_nat (fan_in t id))) 0.
Proof.
  unfold row_padding. rewrite row_count_final, drop_3_final. simpl.
  rewrite Nat2Z.id. apply drop_app_length.
Qed.

(** X1: whatever the table and the bound, every row of the file is its
    identifier, a downstream field and a count, followed by exactly that
    many upstream identifiers (the reaches whose [NextDownID] is the row's
    identifier, in table order), followed by zeros only, as many as the
    width exceeds the count and none when it does not. *)
Theorem row_layout (t : list reach) (o : option Z) :
  ∃ rows, execute t o = inr rows ∧
    ∀ row, row ∈ rows →
      ∃ id d,
        id ∈ column HydroID t ∧
        row = [id; d; Z.of_nat (length (row_upstream row))]
                ++ row_upstream row ++ row_padding row ∧
        row_upstream row = upstream_ids t id ∧
        row_padding row =
          replicate
            (Z.to_nat (resolve_width o (Z.of_nat (max_fan_in t))
                       - Z.of_nat (length (row_upstream row)))) 0.
Proof.
  eexists. split; [apply execute_eq|].
  intros row (id & Hid & ->)%elem_of_rows.
  exists id. eexists. split; [done|].
  rewrite row_upstream_final, row_padding_final. fold (fan_in t id).
  repeat split; reflexivity.
Qed.

(** ** The empty table and the width bound *)

(** X2: the file is empty exactly when the table is empty; an empty table
    raises no exception, with or without a bound. *)
Theorem empty_file_iff_empty_table (t : list reach) (o : option Z) :
  execute t o = inr [] ↔ t = [].
Proof.
  rewrite execute_eq. split.
  - intros [= Hnil]. apply fmap_nil_inv in Hnil.
    apply (f_equal length) in Hnil.
    rewrite (Permutation_length (sort_Permutation _)) in Hnil.
    unfold column in Hnil. rewrite length_fmap in Hnil.
    by apply length_zero_iff_nil.
  - by intros ->.
Qed.

Lemma final_row_no_padding t w id :
  w ≤ Z.of_nat (fan_in t id) → final_row t w id = raw_row t id.
Proof.
  intros Hw. unfold final_row.
  replace (Z.to_nat (w - Z.of_nat (fan_in t id))) with 0%nat by lia.
  apply app_nil_r.
Qed.

(** X3: a bound that is at most the smallest upstream count of the table,
    in particular a bound of zero or less, adds no padding at all: the file
    holds the rows exactly as the loop built them. *)
Theorem small_bound_no_padding (t : list reach) (w : Z) :
  (∀ id, id ∈ column HydroID t → w ≤ Z.of_nat (fan_in t id)) →
  ∃ list_all max_count_Upstream,
    scan t = inr (list_all, max_count_Upstream) ∧
    execute t (Some w) = inr list_all.
Proof.
  intros Hw. do 2 eexists. split; [apply scan_eq|].
  rewrite execute_eq. f_equal. apply list_fmap_ext.
  intros i id Hid. apply final_row_no_padding, Hw.
  rewrite <- (sort_Permutation (column HydroID t)).
  by eapply list_elem_of_lookup_2.
Qed.

Lemma small_bound_no_padding_witness :
  ∃ list_all max_count_Upstream,
    scan example_table = inr (list_all, max_count_Upstream) ∧
    execute example_table (Some 0) = inr list_all.
Proof.
  apply (small_bound_no_padding example_table 0). intros id _. lia.
Defined.

(** X4: once the bound covers the largest upstream count, raising it by [k]
    appends [k] zeros to every row and changes nothing else; and running
    without a bound is running with the largest upstream count as bound. *)
Theorem wider_bound_appends_zeros (t : list reach) (w k : Z) :
  Z.of_nat (max_fan_in t) ≤ w →
  0 ≤ k →
  ∃ rows, execute t (Some w) = inr rows ∧
    execute t (Some (w + k)) =
      inr ((λ row, row ++ replicate (Z.to_nat k) 0) <$> rows) ∧
    execute t None = execute t (Some (Z.of_nat (max_fan_in t))).
Proof.
  intros Hw Hk. eexists. split; [apply execute_eq|].
  split; [|by rewrite !execute_eq].
  rewrite execute_eq. f_equal. rewrite <- list_fmap_compose.
  apply list_fmap_ext. intros i id Hid. unfold compose.
  assert (Hin : id ∈ column HydroID t).
  { rewrite <- (sort_Permutation (column HydroID t)).
    by eapply list_elem_of_lookup_2. }
  apply fan_in_le_max in Hin. unfold final_row.
  rewrite <- app_assoc, <- replicate_add. do 2 f_equal. simpl. lia.
Qed.

Lemma wider_bound_appends_zeros_witness :
  ∃ rows, execute example_table (Some 2) = inr rows ∧
    execute example_table (Some (2 + 3)) =
      inr ((λ row, row ++ replicate (Z.to_nat 3) 0) <$> rows) ∧
    execute example_table None =
      execute example_table (Some (Z.of_nat (max_fan_in example_table))).
Proof.
  apply (wider_bound_appends_zeros example_table 2 3).
  - vm_compute. discriminate.
  - lia.
Defined.

Lemma max_list_with_attained {A} (f : A → nat) (l : list A) :
  l ≠ [] → ∃ x, x ∈ l ∧ f x = max_list_with f l.
Proof.
  induction l as [|x l IH]; [done|]. intros _. simpl.
  destruct l as [|y l].
  - exists x. split; [left|simpl; lia].
  - destruct IH as (z & Hz & Hfz); [done|].
    destruct (decide (f x ≤ max_list_with f (y :: l))%nat).
    + exists z. split; [by right|lia].
    + exists x. split; [left|lia].
Qed.

(** X5: without a bound the width is tight: in a non-empty table some reach
    has as many upstream reaches as the table is wide, and its row carries
    no padding. *)
Theorem default_width_is_tight (t : list reach) :
  t ≠ [] →
  ∃ rows row, execute t None = inr rows ∧
    row ∈ rows ∧
    row_padding row = [] ∧
    length (row_upstream row) = max_fan_in t ∧
    length row = (3 + max_fan_in t)%nat.
Proof.
  intros Ht.
  destruct (max_list_with_attained (fan_in t) (column HydroID t))
    as (id & Hid & Hmax).
  { unfold column. by intros ?%fmap_nil_inv. }
  fold (max_fan_in t) in Hmax.
  do 2 eexists. split; [apply execute_eq|].
  split; [apply elem_of_rows; eauto|]. unfold resolve_width.
  rewrite row_padding_final, row_upstream_final, length_final.
  fold (fan_in t id). rewrite Hmax.
  replace (Z.to_nat _) with 0%nat by lia. split; [done|]. lia.
Qed.

Lemma default_width_is_tight_witness :
  ∃ rows row, execute example_table None = inr rows ∧
    row ∈ rows ∧
    row_padding row = [] ∧
    length (row_upstream row) = max_fan_in example_table ∧
    length row = (3 + max_fan_in example_table)%nat.
Proof. apply (default_width_is_tight example_table). discriminate. Defined.

(** ** Upstream and downstream fields agree *)

Lemma elem_of_upstream_ids t a u :
  u ∈ upstream_ids t a ↔ ∃ r, r ∈ t ∧ HydroID r = u ∧ NextDownID r = a.
Proof.
  unfold upstream_ids, column, where_eq.
  rewrite list_elem_of_fmap. setoid_rewrite list_elem_of_filter. split.
  - intros (r & -> & Ha & Hr). eauto.
  - intros (r & Hr & <- & Ha). eauto.
Qed.

Lemma NoDup_column_inj t r r' :
  NoDup (column HydroID t) → r ∈ t → r' ∈ t →
  HydroID r = HydroID r' → r = r'.
Proof.
  unfold column. induction t as [|x t IH]; [by intros _ ?%elem_of_nil|].
  rewrite fmap_cons. intros [Hx Hnd]%NoDup_cons.
  intros [->|Hr]%elem_of_cons [->|Hr']%elem_of_cons Heq; [done|..|by auto].
  - destruct Hx. rewrite Heq. by apply elem_of_column.
  - destruct Hx. rewrite <- Heq. by apply elem_of_column.
Qed.

Lemma NoDup_first_down t r :
  NoDup (column HydroID t) → r ∈ t →
  first_down t (HydroID r) = Some (NextDownID r).
Proof.
  intros Hnd Hr.
  destruct (NoDup_first_row t r Hnd Hr) as (l1 & l2 & -> & Hl1).
  by apply first_down_first_row.
Qed.

(** X6: in a table with unique identifiers, every upstream identifier
    listed in the row of a reach [a] is the identifier of a reach of the
    table, and that reach's own row names [a] in its downstream field
    (written 0 when [a] is -1). *)
Theorem upstream_points_back (t : list reach) (o : option Z) :
  NoDup (column HydroID t) →
  ∃ rows, execute t o = inr rows ∧
    ∀ row a u, row ∈ rows → row_id row = Some a → u ∈ row_upstream row →
      u ∈ column HydroID t ∧
      ∃ row', row' ∈ rows ∧ row_id row' = Some u ∧
        row_down row' = Some (if decide (a = -1) then 0 else a).
Proof.
  intros Hnd. eexists. split; [apply execute_eq|].
  intros row a u (id & Hid & ->)%elem_of_rows.
  rewrite row_id_final, row_upstream_final. intros [= ->].
  intros (r & Hr & <- & <-)%elem_of_upstream_ids.
  split; [by apply elem_of_column|].
  exists (final_row t (resolve_width o (Z.of_nat (max_fan_in t)))
            (HydroID r)).
  split; [apply elem_of_rows; eauto using elem_of_column|].
  split; [apply row_id_final|].
  rewrite row_down_final. by rewrite NoDup_first_down.
Qed.

Lemma upstream_points_back_witness :
  ∃ rows, execute example_table None = inr rows ∧
    ∀ row a u, row ∈ rows → row_id row = Some a → u ∈ row_upstream row →
      u ∈ column HydroID example_table ∧
      ∃ row', row' ∈ rows ∧ row_id row' = Some u ∧
        row_down row' = Some (if decide (a = -1) then 0 else a).
Proof.
  apply (upstream_points_back example_table None).
  apply (bool_decide_unpack _). vm_compute. exact I.
Defined.

(** X7: whatever the table, a reach whose [NextDownID] is the identifier
    of a reach of the table is listed among the upstream identifiers of
    every row of that identifier, and there is such a row. *)
Theorem downstream_lists_upstream (t : list reach) (o : option Z)
    (r : reach) :
  r ∈ t →
  NextDownID r ∈ column HydroID t →
  ∃ rows, execute t o = inr rows ∧
    (∃ row, row ∈ rows ∧ row_id row = Some (NextDownID r)) ∧
    ∀ row, row ∈ rows → row_id row = Some (NextDownID r) →
      HydroID r ∈ row_upstream row.
Proof.
  intros Hr Hd. eexists. split; [apply execute_eq|]. split.
  - eexists. split; [apply elem_of_rows; eauto|]. apply row_id_final.
  - intros row (id & Hid & ->)%elem_of_rows.
    rewrite row_id_final, row_upstream_final. intros [= ->].
    apply elem_of_upstream_ids. eauto.
Qed.

Lemma downstream_lists_upstream_witness :
  ∃ rows, execute example_table None = inr rows ∧
    (∃ row, row ∈ rows ∧ row_id row = Some 2) ∧
    ∀ row, row ∈ rows → row_id row = Some 2 → 4 ∈ row_upstream row.
Proof.
  apply (downstream_lists_upstream example_table None (Reach 4 2)).
  - apply (bool_decide_unpack _). vm_compute. exact I.
  - apply (bool_decide_unpack _). vm_compute. exact I.
Defined.

Lemma NoDup_upstream_ids t a :
  NoDup (column HydroID t) → NoDup (upstream_ids t a).
Proof.
  intros Hnd. eapply sublist_NoDup; [exact Hnd|].
  unfold upstream_ids, column, where_eq.
  apply fmap_sublist, sublist_filter.
Qed.

Lemma NoDup_all_upstream_ids t (l : list Z) :
  NoDup (column HydroID t) → NoDup l →
  NoDup (mjoin (upstream_ids t <$> l)).
Proof.
  intros Hnd. induction 1 as [|a l Ha Hl IH]; [constructor|].
  rewrite fmap_cons. cbn [mjoin list_join]. apply NoDup_app.
  split; [by apply NoDup_upstream_ids|]. split; [|done].
  intros u (r & Hr & <- & <-)%elem_of_upstream_ids.
  intros (ups & Hu & (b & -> & Hb)%list_elem_of_fmap)%list_elem_of_join.
  apply elem_of_upstream_ids in Hu as (r' & Hr' & Heq & <-).
  apply (NoDup_column_inj t r' r Hnd Hr' Hr) in Heq as ->. done.
Qed.

Lemma upstream_column_rows t w (l : list Z) :
  row_upstream <$> (final_row t w <$> l) = upstream_ids t <$> l.
Proof.
  rewrite <- list_fmap_compose. apply list_fmap_ext.
  intros i id _. apply row_upstream_final.
Qed.

(** X8: in a table with unique identifiers no reach is listed as an
    upstream reach twice, neither within a row nor across the rows of the
    file. *)
Theorem listed_upstream_once (t : list reach) (o : option Z) :
  NoDup (column HydroID t) →
  ∃ rows, execute t o = inr rows ∧
    NoDup (mjoin (row_upstream <$> rows)).
Proof.
  intros Hnd. eexists. split; [apply execute_eq|].
  rewrite upstream_column_rows. apply NoDup_all_upstream_ids; [done|].
  by rewrite sort_Permutation.
Qed.

Lemma listed_upstream_once_witness :
  ∃ rows, execute example_table None = inr rows ∧
    NoDup (mjoin (row_upstream <$> rows)).
Proof.
  apply (listed_upstream_once example_table None).
  apply (bool_decide_unpack _). vm_compute. exact I.
Defined.

(** ** The order of the rows of the table *)

Lemma upstream_ids_Permutation t t' a :
  t' ≡ₚ t → upstream_ids t' a ≡ₚ upstream_ids t a.
Proof. intros Ht. unfold upstream_ids, column, where_eq. by rewrite Ht. Qed.

Lemma fan_in_Permutation t t' a : t' ≡ₚ t → fan_in t' a = fan_in t a.
Proof.
  intros Ht. unfold fan_in.
  by rewrite (Permutation_length (upstream_ids_Permutation t t' a Ht)).
Qed.

Lemma max_list_with_ext {A} (f g : A → nat) (l : list A) :
  (∀ x, f x = g x) → max_list_with f l = max_list_with g l.
Proof. intros Hfg. induction l as [|x l IH]; simpl; [done|]. by rewrite Hfg, IH. Qed.

Lemma max_fan_in_Permutation t t' : t' ≡ₚ t → max_fan_in t' = max_fan_in t.
Proof.
  intros Ht. unfold max_fan_in.
  rewrite (max_list_with_ext (fan_in t') (fan_in t))
    by (intros a; by apply fan_in_Permutation).
  apply max_list_with_Permutation_proper. unfold column. by rewrite Ht.
Qed.

Lemma first_down_Permutation t t' id :
  NoDup (column HydroID t) → t' ≡ₚ t → id ∈ column HydroID t →
  first_down t' id = first_down t id.
Proof.
  intros Hnd Ht (r & -> & Hr)%list_elem_of_fmap.
  rewrite (NoDup_first_down t r Hnd Hr). apply NoDup_first_down.
  - unfold column in *. by rewrite Ht.
  - by rewrite Ht.
Qed.

(** X9: in a table with unique identifiers, reordering the rows of the
    table changes nothing in the file but the order of the upstream
    identifiers within a row: row by row, the identifier, the downstream
    field, the count and the padding are the same, and the upstream
    identifiers are the same up to their order. *)
Theorem rows_up_to_table_order (t t' : list reach) (o : option Z) :
  NoDup (column HydroID t) →
  t' ≡ₚ t →
  ∃ rows rows', execute t o = inr rows ∧ execute t' o = inr rows' ∧
    Forall2 (λ row row',
               take 3 row = take 3 row' ∧
               row_upstream row ≡ₚ row_upstream row' ∧
               row_padding row = row_padding row') rows rows'.
Proof.
  intros Hnd Ht. do 2 eexists.
  split; [apply execute_eq|]. split; [apply execute_eq|].
  rewrite (sort_Permutation_eq (column HydroID t') (column HydroID t))
    by (unfold column; by rewrite Ht).
  rewrite (max_fan_in_Permutation t t' Ht).
  apply Forall2_fmap, Forall_Forall2_diag, Forall_forall.
  intros id Hid. rewrite (sort_Permutation (column HydroID t)) in Hid.
  rewrite !row_upstream_final, !row_padding_final.
  rewrite (fan_in_Permutation t t' id Ht). split; [|split; [|done]].
  - unfold final_row, raw_row. cbn [app take].
    rewrite (first_down_Permutation t t' id Hnd Ht Hid).
    by rewrite (fan_in_Permutation t t' id Ht).
  - symmetry. by apply upstream_ids_Permutation.
Qed.

Lemma rows_up_to_table_order_witness :
  ∃ rows rows',
    execute example_table None = inr rows ∧
    execute [Reach 3 1; Reach 4 2; Reach 2 1; Reach 1 (-1)] None
      = inr rows' ∧
    Forall2 (λ row row',
               take 3 row = take 3 row' ∧
               row_upstream row ≡ₚ row_upstream row' ∧
               row_padding row = row_padding row') rows rows'.
Proof.
  apply (rows_up_to_table_order example_table
           [Reach 3 1; Reach 4 2; Reach 2 1; Reach 1 (-1)] None).
  - apply (bool_decide_unpack _). vm_compute. exact I.
  - apply (bool_decide_unpack _). vm_compute. exact I.
Defined.

(** ** What the file never holds *)

(** X10: whatever the table, two rows of the file with the same first field
    are the same row in every field; a repeated identifier repeats its row,
    it never yields two different ones. *)
Theorem same_id_same_row (t : list reach) (o : option Z) :
  ∃ rows, execute t o = inr rows ∧
    ∀ row row', row ∈ rows → row' ∈ rows →
      row_id row = row_id row' → row = row'.
Proof.
  eexists. split; [apply execute_eq|].
  intros row row' (id & _ & ->)%elem_of_rows (id' & _ & ->)%elem_of_rows.
  rewrite !row_id_final. by intros [= ->].
Qed.

(** X11: whatever the table and the bound, no row of the file has -1 as its
    downstream field, and the count field of a row is never negative nor
    larger than the number of reaches of the table. *)
Theorem no_sentinel_in_file (t : list reach) (o : option Z) :
  ∃ rows, execute t o = inr rows ∧
    ∀ row, row ∈ rows →
      row_down row ≠ Some (-1) ∧
      ∃ c, row_count row = Some c ∧ 0 ≤ c ≤ Z.of_nat (length t).
Proof.
  eexists. split; [apply execute_eq|].
  intros row (id & _ & ->)%elem_of_rows. split.
  - rewrite row_down_final. simpl. case_decide; intros [= ?]; lia.
  - eexists. split; [apply row_count_final|]. split; [lia|].
    apply inj_le. unfold fan_in, upstream_ids, column, where_eq.
    rewrite length_fmap. apply length_filter.
Qed.

(** ** The checks of the host interface *)

Lemma field_names_fmap (upper : string → string) (fields acc : list string) :
  foldl (λ field_names field, field_names ++ [upper field]) acc fields =
    acc ++ (upper <$> fields).
Proof.
  revert acc. induction fields as [|f fields IH]; intros acc; simpl.
  - by rewrite app_nil_r.
  - rewrite IH, <- app_assoc. done.
Qed.

(** X12: the field check depends on the set of fields only: when a feature
    class passes, every feature class that has at least the same fields, in
    any order, passes as well. *)
Theorem fields_check_monotone (upper : string → string)
    (fields fields' : list string) :
  fields ⊆ fields' →
  updateMessages_fields upper true (inr fields) = None →
  updateMessages_fields upper true (inr fields') = None.
Proof.
  unfold updateMessages_fields. rewrite !field_names_fmap, !app_nil_l.
  intros Hsub.
  assert (Hup : ∀ x, x ∈ upper <$> fields → x ∈ upper <$> fields').
  { intros x (f & -> & Hf)%list_elem_of_fmap.
    apply list_elem_of_fmap. eauto. }
  destruct (decide (¬ (_ ∈ upper <$> fields ∧ _ ∈ upper <$> fields)))
    as [|Hok]; [done|].
  intros _. apply dec_stable in Hok as [H1 H2].
  rewrite decide_False; [done|]. intros Hbad. apply Hbad. auto.
Qed.

Lemma fields_check_monotone_witness :
  updateMessages_fields id true
    (inr ["OBJECTID"; "NEXTDOWNID"; "Shape"; "HYDROID"]%string) = None.
Proof.
  apply (fields_check_monotone id ["HYDROID"; "NEXTDOWNID"]%string).
  - intros x Hx. apply list_elem_of_In. apply list_elem_of_In in Hx.
    simpl in *. tauto.
  - reflexivity.
Defined.






